(** * input-defs.h: fallback definitions of Linux input event codes

    The header consists of one [#include <linux/input.h>] followed by 24
    blocks of the shape

      #ifndef NAME
      #define NAME 0x...
      #endif

    Its meaning is what the C preprocessor does with these directives to the
    table of defined macros.  This file embeds that fragment of the
    preprocessor and the header itself, directive by directive, and proves
    properties of the macro table the header leaves behind.

    - The macro table is a finite map from names to integers: every macro
      the header deals with is an object-like macro whose replacement is one
      integer constant (an event code).  Module [Replacements] repeats the
      preprocessor over macro tables that may also bind a name to a
      replacement that is no integer constant, and agrees with the first
      one on tables of integers.
    - Conditional groups nest; the lines of a skipped group have no effect.
    - [#define] of a name that is already defined with a different value
      stops preprocessing with an error; an identical redefinition is
      accepted.
    - [#include] preprocesses the named file of the platform in place.  The
      files of the platform are not part of the header: they are a parameter
      [fs] of the preprocessor, together with the number of nested
      inclusions it allows. *)

From stdpp Require Import gmap strings list fin_maps.
From Stdlib Require Import ZArith.

Local Open Scope Z_scope.
Local Open Scope string_scope.
Local Open Scope list_scope.

(** ** Directives *)

(** One preprocessing directive, one source line each.  The header itself
    uses [Include], [Ifndef], [Define] and [Endif]; [Undef] belongs to the
    language the platform header may be written in. *)
Inductive directive : Type :=
  | Include (file : string)
  | Ifndef (name : string)
  | Define (name : string) (value : Z)
  | Undef (name : string)
  | Endif.

(** The ways preprocessing of a file stops with a diagnostic. *)
Inductive error : Type :=
  | MissingFile (file : string)
  | NestingTooDeep (file : string)
  | Redefined (name : string) (old new : Z)
  | RedefinedText (name : string) (old : string) (new : Z)
  | EndifWithoutIf
  | UnterminatedConditional.

Inductive result (A : Type) : Type :=
  | Ok (a : A)
  | Err (e : error).
Arguments Ok {A} a.
Arguments Err {A} e.

(** [result] is an error monad; stdpp's [x ← r; k] is its bind. *)
Global Instance result_bind : MBind result := λ A B k r,
  match r with
  | Ok a => k a
  | Err e => Err e
  end.

(** Outcomes can be compared by computation. *)
Global Instance error_eq_dec : EqDecision error.
Proof. solve_decision. Defined.

Global Instance result_eq_dec {A : Type} `{EqDecision A} : EqDecision (result A).
Proof. solve_decision. Defined.

(** ** Preprocessor state *)

(** [conds] is the stack of open conditional groups, innermost first; an
    entry is [true] when the lines of that group are processed and [false]
    when they are skipped.  [macros] is the table of defined macros. *)
Record state : Type := State {
  conds : list bool;
  macros : gmap string Z
}.

Definition active (st : state) : bool :=
  match conds st with
  | [] => true
  | b :: _ => b
  end.

Definition defined (name : string) (m : gmap string Z) : bool :=
  bool_decide (is_Some (m !! name)).

(** [#define name value]: binds a fresh name; a second definition is accepted
    only when it is identical to the first one (C11 6.10.3p2).  The model
    follows the standard, for which a different second definition is a
    constraint violation; a compiler may diagnose it with a warning only and
    go on with the new definition.  No line of the header's guarded
    definitions reaches that branch. *)
Definition define (name : string) (value : Z) (m : gmap string Z)
  : result (gmap string Z) :=
  match m !! name with
  | None => Ok (<[name := value]> m)
  | Some old => if decide (old = value) then Ok m else Err (Redefined name old value)
  end.

Definition endif (st : state) : result state :=
  match conds st with
  | [] => Err EndifWithoutIf
  | _ :: cs => Ok (State cs (macros st))
  end.

(** Runs the directives of one file in order, stopping at the first error. *)
Fixpoint run (exec : directive → state → result state)
    (ds : list directive) (st : state) : result state :=
  match ds with
  | [] => Ok st
  | d :: ds' => st' ← exec d st; run exec ds' st'
  end.

(** A file is preprocessed with a conditional stack of its own, which must be
    empty again at its end. *)
Definition file (exec : directive → state → result state)
    (ds : list directive) (m : gmap string Z) : result (gmap string Z) :=
  st ← run exec ds (State [] m);
  match conds st with
  | [] => Ok (macros st)
  | _ :: _ => Err UnterminatedConditional
  end.

(** The states the preprocessor goes through: the state before the first
    directive, then the state after each directive, up to the end of the
    file or to the first error. *)
Fixpoint trace (exec : directive → state → result state)
    (ds : list directive) (st : state) : list state :=
  st ::
  match ds with
  | [] => []
  | d :: ds' =>
      match exec d st with
      | Ok st' => trace exec ds' st'
      | Err _ => []
      end
  end.

Section Preprocessor.

(** What [#include <file>] finds on the platform: the directives of the
    file, or nothing when the platform has no such header. *)
Variable fs : string → option (list directive).

(** One directive.  [depth] is the number of nested inclusions still
    allowed. *)
Fixpoint exec (depth : nat) (d : directive) (st : state) : result state :=
  if active st then
    match d with
    | Include f =>
        match depth with
        | O => Err (NestingTooDeep f)
        | S depth' =>
            match fs f with
            | None => Err (MissingFile f)
            | Some ds =>
                m ← file (exec depth') ds (macros st);
                Ok (State (conds st) m)
            end
        end
    | Ifndef name =>
        Ok (State (negb (defined name (macros st)) :: conds st) (macros st))
    | Define name value =>
        m ← define name value (macros st);
        Ok (State (conds st) m)
    | Undef name => Ok (State (conds st) (delete name (macros st)))
    | Endif => endif st
    end
  else
    match d with
    | Ifndef _ => Ok (State (false :: conds st) (macros st))
    | Endif => endif st
    | Include _ | Define _ _ | Undef _ => Ok st
    end.

Definition preprocess (depth : nat) (ds : list directive)
    (m : gmap string Z) : result (gmap string Z) :=
  file (exec depth) ds m.

End Preprocessor.

(** ** The header *)

(** Lines 3 to 74 of input-defs.h: 24 blocks of three lines. *)
Definition guards : list directive := [
  Ifndef "BTN_EAST";
  Define "BTN_EAST" 0x131;
  Endif;
  Ifndef "BTN_SOUTH";
  Define "BTN_SOUTH" 0x130;
  Endif;
  Ifndef "BTN_NORTH";
  Define "BTN_NORTH" 0x133;
  Endif;
  Ifndef "BTN_WEST";
  Define "BTN_WEST" 0x134;
  Endif;
  Ifndef "BTN_DPAD_LEFT";
  Define "BTN_DPAD_LEFT" 0x222;
  Endif;
  Ifndef "BTN_DPAD_RIGHT";
  Define "BTN_DPAD_RIGHT" 0x223;
  Endif;
  Ifndef "BTN_DPAD_UP";
  Define "BTN_DPAD_UP" 0x220;
  Endif;
  Ifndef "BTN_DPAD_DOWN";
  Define "BTN_DPAD_DOWN" 0x221;
  Endif;
  Ifndef "ABS_CYMBAL_LEFT";
  Define "ABS_CYMBAL_LEFT" 0x45;
  Endif;
  Ifndef "ABS_CYMBAL_RIGHT";
  Define "ABS_CYMBAL_RIGHT" 0x46;
  Endif;
  Ifndef "ABS_TOM_LEFT";
  Define "ABS_TOM_LEFT" 0x41;
  Endif;
  Ifndef "ABS_TOM_RIGHT";
  Define "ABS_TOM_RIGHT" 0x42;
  Endif;
  Ifndef "ABS_TOM_FAR_RIGHT";
  Define "ABS_TOM_FAR_RIGHT" 0x43;
  Endif;
  Ifndef "ABS_BASS";
  Define "ABS_BASS" 0x48;
  Endif;
  Ifndef "ABS_HI_HAT";
  Define "ABS_HI_HAT" 0x49;
  Endif;
  Ifndef "BTN_FRET_FAR_UP";
  Define "BTN_FRET_FAR_UP" 0x224;
  Endif;
  Ifndef "BTN_FRET_UP";
  Define "BTN_FRET_UP" 0x225;
  Endif;
  Ifndef "BTN_FRET_MID";
  Define "BTN_FRET_MID" 0x226;
  Endif;
  Ifndef "BTN_FRET_LOW";
  Define "BTN_FRET_LOW" 0x227;
  Endif;
  Ifndef "BTN_FRET_FAR_LOW";
  Define "BTN_FRET_FAR_LOW" 0x228;
  Endif;
  Ifndef "BTN_STRUM_BAR_UP";
  Define "BTN_STRUM_BAR_UP" 0x229;
  Endif;
  Ifndef "BTN_STRUM_BAR_DOWN";
  Define "BTN_STRUM_BAR_DOWN" 0x22a;
  Endif;
  Ifndef "ABS_WHAMMY_BAR";
  Define "ABS_WHAMMY_BAR" 0x4b;
  Endif;
  Ifndef "ABS_FRET_BOARD";
  Define "ABS_FRET_BOARD" 0x4a;
  Endif
].

(** The whole header: line 1, then the guarded definitions. *)
Definition input_defs_h : list directive :=
  Include "linux/input.h" :: guards.

(** The constant table as the specification lists it (section 4.1), symbol
    and fallback value, in the order of the specification. *)
Definition table : list (string * Z) := [
  ("BTN_EAST", 0x131);
  ("BTN_SOUTH", 0x130);
  ("BTN_NORTH", 0x133);
  ("BTN_WEST", 0x134);
  ("BTN_DPAD_LEFT", 0x222);
  ("BTN_DPAD_RIGHT", 0x223);
  ("BTN_DPAD_UP", 0x220);
  ("BTN_DPAD_DOWN", 0x221);
  ("ABS_CYMBAL_LEFT", 0x45);
  ("ABS_CYMBAL_RIGHT", 0x46);
  ("ABS_TOM_LEFT", 0x41);
  ("ABS_TOM_RIGHT", 0x42);
  ("ABS_TOM_FAR_RIGHT", 0x43);
  ("ABS_BASS", 0x48);
  ("ABS_HI_HAT", 0x49);
  ("BTN_FRET_FAR_UP", 0x224);
  ("BTN_FRET_UP", 0x225);
  ("BTN_FRET_MID", 0x226);
  ("BTN_FRET_LOW", 0x227);
  ("BTN_FRET_FAR_LOW", 0x228);
  ("BTN_STRUM_BAR_UP", 0x229);
  ("BTN_STRUM_BAR_DOWN", 0x22a);
  ("ABS_WHAMMY_BAR", 0x4b);
  ("ABS_FRET_BOARD", 0x4a)
].

Definition symbols : list string := table.*1.

(** The values the header's own [#define] lines bind, in source order. *)
Definition fallback_values (ds : list directive) : list Z :=
  omap (λ d, match d with Define _ v => Some v | _ => None end) ds.

(** One guarded definition, and the block of them for a table. *)
Definition guard (entry : string * Z) : list directive :=
  [Ifndef entry.1; Define entry.1 entry.2; Endif].

Definition guard_block (tbl : list (string * Z)) : list directive :=
  tbl ≫= guard.

(** What one guarded definition does to the macro table. *)
Definition fallback (entry : string * Z) (m : gmap string Z) : gmap string Z :=
  match m !! entry.1 with
  | Some _ => m
  | None => <[entry.1 := entry.2]> m
  end.

(** The directives that can only add bindings: all but [#undef], and but
    [#include], which does whatever the included file does. *)
Definition preserving (d : directive) : bool :=
  match d with
  | Ifndef _ | Define _ _ | Endif => true
  | Include _ | Undef _ => false
  end.

(** An empty platform: no header can be found. *)
Definition no_headers : string → option (list directive) := λ _, None.

(** A platform with the <linux/input.h> of an old kernel, cut down to a few
    of its lines: the event types, and the gamepad buttons under their old
    names only. *)
Definition old_input_h : list directive := [
  Define "EV_VERSION" 0x010001;
  Define "EV_KEY" 0x01;
  Define "EV_ABS" 0x03;
  Define "BTN_A" 0x130;
  Define "BTN_B" 0x131
].

(** The macros [old_input_h] defines. *)
Definition old_macros : gmap string Z :=
  list_to_map [("EV_VERSION", 0x010001); ("EV_KEY", 0x01); ("EV_ABS", 0x03);
               ("BTN_A", 0x130); ("BTN_B", 0x131)].

Definition old_platform : string → option (list directive) :=
  λ f, if decide (f = "linux/input.h") then Some old_input_h else None.

(** A platform with the <linux/input.h> of a newer kernel, cut down
    likewise: it has some of the table's buttons already. *)
Definition new_input_h : list directive := [
  Define "EV_VERSION" 0x010001;
  Define "EV_KEY" 0x01;
  Define "EV_ABS" 0x03;
  Define "BTN_SOUTH" 0x130;
  Define "BTN_A" 0x130;
  Define "BTN_EAST" 0x131;
  Define "BTN_B" 0x131;
  Define "BTN_DPAD_UP" 0x220
].

(** The macros [new_input_h] defines. *)
Definition new_macros : gmap string Z :=
  list_to_map [("EV_VERSION", 0x010001); ("EV_KEY", 0x01); ("EV_ABS", 0x03);
               ("BTN_SOUTH", 0x130); ("BTN_A", 0x130); ("BTN_EAST", 0x131);
               ("BTN_B", 0x131); ("BTN_DPAD_UP", 0x220)].

Definition new_platform : string → option (list directive) :=
  λ f, if decide (f = "linux/input.h") then Some new_input_h else None.

(** ** Macro tables with arbitrary replacements *)

(** What a macro stands for: an integer constant, as in every [#define] of
    the header, or any other replacement text, the empty one included (the
    table after [#define NAME], or [-DNAME=] on the command line). *)
Inductive replacement : Type :=
  | Integer (z : Z)
  | Text (s : string).

Global Instance replacement_eq_dec : EqDecision replacement.
Proof. solve_decision. Defined.

Global Instance result_fmap : FMap result := λ A B f r,
  match r with
  | Ok a => Ok (f a)
  | Err e => Err e
  end.

(** The preprocessor of the first part, definition for definition, over
    macro tables of replacements.  The directives are the same: a [#define]
    line binds an integer constant; other replacements come with the macro
    table preprocessing starts from. *)
Module Replacements.

Record state : Type := State {
  conds : list bool;
  macros : gmap string replacement
}.

Definition active (st : state) : bool :=
  match conds st with
  | [] => true
  | b :: _ => b
  end.

(** [#ifndef] asks whether the name is defined, not what it stands for. *)
Definition defined (name : string) (m : gmap string replacement) : bool :=
  bool_decide (is_Some (m !! name)).

Definition define (name : string) (value : Z) (m : gmap string replacement)
  : result (gmap string replacement) :=
  match m !! name with
  | None => Ok (<[name := Integer value]> m)
  | Some (Integer old) =>
      if decide (old = value) then Ok m else Err (Redefined name old value)
  | Some (Text old) => Err (RedefinedText name old value)
  end.

Definition endif (st : state) : result state :=
  match conds st with
  | [] => Err EndifWithoutIf
  | _ :: cs => Ok (State cs (macros st))
  end.

Fixpoint run (exec : directive → state → result state)
    (ds : list directive) (st : state) : result state :=
  match ds with
  | [] => Ok st
  | d :: ds' => st' ← exec d st; run exec ds' st'
  end.

Definition file (exec : directive → state → result state)
    (ds : list directive) (m : gmap string replacement)
  : result (gmap string replacement) :=
  st ← run exec ds (State [] m);
  match conds st with
  | [] => Ok (macros st)
  | _ :: _ => Err UnterminatedConditional
  end.

Section Preprocessor.

Variable fs : string → option (list directive).

Fixpoint exec (depth : nat) (d : directive) (st : state) : result state :=
  if active st then
    match d with
    | Include f =>
        match depth with
        | O => Err (NestingTooDeep f)
        | S depth' =>
            match fs f with
            | None => Err (MissingFile f)
            | Some ds =>
                m ← file (exec depth') ds (macros st);
                Ok (State (conds st) m)
            end
        end
    | Ifndef name =>
        Ok (State (negb (defined name (macros st)) :: conds st) (macros st))
    | Define name value =>
        m ← define name value (macros st);
        Ok (State (conds st) m)
    | Undef name => Ok (State (conds st) (delete name (macros st)))
    | Endif => endif st
    end
  else
    match d with
    | Ifndef _ => Ok (State (false :: conds st) (macros st))
    | Endif => endif st
    | Include _ | Define _ _ | Undef _ => Ok st
    end.

Definition preprocess (depth : nat) (ds : list directive)
    (m : gmap string replacement) : result (gmap string replacement) :=
  file (exec depth) ds m.

End Preprocessor.

(** What one guarded definition does to the macro table. *)
Definition fallback (entry : string * Z) (m : gmap string replacement)
  : gmap string replacement :=
  match m !! entry.1 with
  | Some _ => m
  | None => <[entry.1 := Integer entry.2]> m
  end.

End Replacements.

(** A table of integers, and a state over one, read as a table of
    replacements and a state over it. *)
Definition integers (m : gmap string Z) : gmap string replacement :=
  Integer <$> m.

Definition lift (st : state) : Replacements.state :=
  Replacements.State (conds st) (integers (macros st)).

(** A macro table in which BTN_EAST is defined with an empty replacement. *)
Definition empty_BTN_EAST : gmap string replacement :=
  {["BTN_EAST" := Text ""]}.

(** ** Sanity checks on concrete runs *)

Example guards_length : length guards = 72%nat.
Proof. reflexivity. Qed.

Example guards_from_table : guards = guard_block table.
Proof. reflexivity. Qed.

Example run_empty_BTN_EAST :
  (m ← preprocess no_headers 0 guards ∅; Ok (m !! "BTN_EAST")) = Ok (Some 0x131).
Proof. vm_compute. reflexivity. Qed.

Example run_predefined_kept :
  (m ← preprocess no_headers 0 guards {["ABS_BASS" := 7]}; Ok (m !! "ABS_BASS"))
  = Ok (Some 7).
Proof. vm_compute. reflexivity. Qed.

Example unguarded_define_conflicts :
  preprocess no_headers 0 [Define "ABS_BASS" 0x48] {["ABS_BASS" := 7]}
  = Err (Redefined "ABS_BASS" 7 0x48).
Proof. vm_compute. reflexivity. Qed.

Example skipped_group_is_skipped :
  preprocess no_headers 0
    [Ifndef "A"; Ifndef "B"; Define "C" 1; Undef "A"; Endif; Define "D" 2; Endif;
     Define "E" 3]
    {["A" := 0]}
  = Ok (<["E" := 3]> {["A" := 0]}).
Proof. vm_compute. reflexivity. Qed.

Example unbalanced_conditionals :
  preprocess no_headers 0 [Ifndef "A"] ∅ = Err UnterminatedConditional
  ∧ preprocess no_headers 0 [Endif] ∅ = Err EndifWithoutIf.
Proof. split; vm_compute; reflexivity. Qed.

Example header_on_new_platform :
  (m ← preprocess new_platform 200 input_defs_h ∅;
   Ok (m !! "BTN_EAST", m !! "ABS_HI_HAT", m !! "BTN_DPAD_DOWN"))
  = Ok (Some 0x131, Some 0x49, Some 0x221).
Proof. vm_compute. reflexivity. Qed.

Example header_without_platform_header :
  preprocess no_headers 200 input_defs_h ∅ = Err (MissingFile "linux/input.h").
Proof. vm_compute. reflexivity. Qed.

Example header_on_old_platform :
  (m ← preprocess old_platform 200 input_defs_h ∅;
   Ok (m !! "BTN_EAST", m !! "EV_KEY", m !! "BTN_B"))
  = Ok (Some 0x131, Some 0x01, Some 0x131).
Proof. vm_compute. reflexivity. Qed.

(** ** The error monad *)

Lemma bind_Ok {A B : Type} (a : A) (k : A → result B) : (Ok a ≫= k) = k a.
Proof. reflexivity. Qed.

Lemma bind_Ok_inv {A B : Type} (r : result A) (k : A → result B) (b : B) :
  (r ≫= k) = Ok b → ∃ a, r = Ok a ∧ k a = Ok b.
Proof. destruct r as [a|e]; [eauto | discriminate]. Qed.

Lemma Ok_inj {A : Type} (a b : A) : Ok a = Ok b → a = b.
Proof. by intros [= ->]. Qed.

Lemma fmap_Ok {A B : Type} (f : A → B) (a : A) : (f <$> Ok a) = Ok (f a).
Proof. reflexivity. Qed.

(** ** Running directive lists *)

Lemma run_app exec ds1 ds2 st :
  run exec (ds1 ++ ds2) st = (run exec ds1 st ≫= run exec ds2).
Proof.
  revert st. induction ds1 as [|d ds1 IH]; intros st; [reflexivity|].
  simpl. destruct (exec d st) as [st'|e]; simpl; [apply IH | reflexivity].
Qed.

Lemma define_fresh name value m :
  m !! name = None → define name value m = Ok (<[name := value]> m).
Proof. unfold define. by intros ->. Qed.

(** A successful [#define] never changes or removes an existing binding. *)
Lemma define_subseteq name value m m' :
  define name value m = Ok m' → m ⊆ m'.
Proof.
  unfold define. destruct (m !! name) as [old|] eqn:Hm.
  - case_decide; [|discriminate]. by intros [= <-].
  - intros [= <-]. by apply insert_subseteq.
Qed.

(** One guarded definition, started outside any conditional group. *)
Lemma run_guard fs depth entry m :
  run (exec fs depth) (guard entry) (State [] m) = Ok (State [] (fallback entry m)).
Proof.
  destruct entry as [name value]. unfold fallback, guard, defined. simpl.
  destruct depth; simpl; unfold defined; simpl;
    (destruct (m !! name) as [old|] eqn:Hm;
     [ rewrite bool_decide_eq_true_2 by eauto; reflexivity
     | rewrite bool_decide_eq_false_2 by (by intros [? ?]); simpl;
       rewrite define_fresh by done; reflexivity ]).
Qed.

Lemma fallback_union entry m (fb : gmap string Z) :
  fallback entry m ∪ fb = m ∪ <[entry.1 := entry.2]> fb.
Proof.
  destruct entry as [name value]. unfold fallback. simpl.
  destruct (m !! name) as [old|] eqn:Hm.
  - apply map_eq. intros k. rewrite !lookup_union.
    destruct (decide (name = k)) as [<-|Hne].
    + rewrite Hm, lookup_insert_eq. by destruct (fb !! name).
    + by rewrite lookup_insert_ne.
  - by rewrite <-insert_union_l, insert_union_r.
Qed.

(** A block of guarded definitions adds the table's bindings underneath the
    ones already present. *)
Lemma run_guard_block fs depth tbl m :
  run (exec fs depth) (guard_block tbl) (State [] m)
  = Ok (State [] (m ∪ list_to_map tbl)).
Proof.
  revert m. induction tbl as [|entry tbl IH]; intros m.
  - simpl. by rewrite (right_id_L ∅ (∪)).
  - change (guard_block (entry :: tbl)) with (guard entry ++ guard_block tbl).
    rewrite run_app, run_guard, bind_Ok, IH. simpl.
    by rewrite fallback_union.
Qed.

Lemma preprocess_guards fs depth m :
  preprocess fs depth guards m = Ok (m ∪ list_to_map table).
Proof.
  unfold preprocess, file. change guards with (guard_block table).
  by rewrite run_guard_block.
Qed.

(** Inclusion leaves the conditional stack of the including file alone. *)
Lemma exec_Include_conds fs depth f st st' :
  exec fs depth (Include f) st = Ok st' → conds st' = conds st.
Proof.
  destruct depth; simpl; destruct (active st); try discriminate;
    try (by intros [= <-]).
  destruct (fs f); [|discriminate].
  intros (m & _ & [= <-])%bind_Ok_inv. reflexivity.
Qed.

Lemma run_singleton exec d st : run exec [d] st = exec d st.
Proof. simpl. by destruct (exec d st). Qed.

(** The whole header: the platform header first, then the fallbacks. *)
Lemma preprocess_input_defs_h fs depth m :
  preprocess fs depth input_defs_h m
  = (m1 ← preprocess fs depth [Include "linux/input.h"] m;
     Ok (m1 ∪ list_to_map table)).
Proof.
  unfold preprocess, file.
  change input_defs_h with ([Include "linux/input.h"] ++ guard_block table).
  rewrite run_app, run_singleton.
  destruct (exec fs depth (Include "linux/input.h") (State [] m)) as [[cs m1]|e] eqn:Hinc;
    [|reflexivity].
  apply exec_Include_conds in Hinc. simpl in Hinc. subst cs.
  rewrite !bind_Ok. simpl conds. simpl macros.
  by rewrite run_guard_block.
Qed.

(** ** Single steps *)

Lemma exec_unfold fs depth d st :
  exec fs depth d st =
  if active st then
    match d with
    | Include f =>
        match depth with
        | O => Err (NestingTooDeep f)
        | S depth' =>
            match fs f with
            | None => Err (MissingFile f)
            | Some ds =>
                m ← file (exec fs depth') ds (macros st);
                Ok (State (conds st) m)
            end
        end
    | Ifndef name =>
        Ok (State (negb (defined name (macros st)) :: conds st) (macros st))
    | Define name value =>
        m ← define name value (macros st);
        Ok (State (conds st) m)
    | Undef name => Ok (State (conds st) (delete name (macros st)))
    | Endif => endif st
    end
  else
    match d with
    | Ifndef _ => Ok (State (false :: conds st) (macros st))
    | Endif => endif st
    | Include _ | Define _ _ | Undef _ => Ok st
    end.
Proof. destruct depth; reflexivity. Qed.

Lemma endif_macros st st' : endif st = Ok st' → macros st' = macros st.
Proof. unfold endif. destruct (conds st); [discriminate|]. by intros [= <-]. Qed.

(** A preserving directive leaves every existing binding as it is. *)
Lemma exec_preserving fs depth d st st' :
  preserving d = true → exec fs depth d st = Ok st' → macros st ⊆ macros st'.
Proof.
  intros Hd. rewrite exec_unfold.
  destruct d; try discriminate; destruct (active st);
    try (by intros [= <-]);
    try (by intros ->%endif_macros).
  intros (m & Hm%define_subseteq & [= <-])%bind_Ok_inv. exact Hm.
Qed.

(** ** Traces *)

Lemma trace_head exec ds st : trace exec ds st !! 0%nat = Some st.
Proof. by destruct ds. Qed.

Lemma trace_run exec ds st st' :
  run exec ds st = Ok st' →
  length (trace exec ds st) = S (length ds)
  ∧ trace exec ds st !! length ds = Some st'.
Proof.
  revert st. induction ds as [|d ds IH]; intros st.
  - by intros [= <-].
  - simpl. destruct (exec d st) as [st1|e]; [|discriminate].
    rewrite bind_Ok. intros [Hlen Hlast]%IH. by rewrite Hlen.
Qed.

(** From any state of a trace of preserving directives on, bindings are only
    added. *)
Lemma trace_from fs depth ds st j sj :
  Forall (λ d, preserving d = true) ds →
  trace (exec fs depth) ds st !! j = Some sj → macros st ⊆ macros sj.
Proof.
  intros Hds. revert st j. induction Hds as [|d ds Hd Hds IH]; intros st j.
  - destruct j as [|j]; simpl; [by intros [= <-] | by destruct j].
  - destruct j as [|j]; simpl; [by intros [= <-]|].
    destruct (exec fs depth d st) as [st1|e] eqn:Hst1; [|by destruct j].
    intros Hj. etrans; [by eapply exec_preserving | by eapply IH].
Qed.

Lemma trace_chain fs depth ds st i j si sj :
  Forall (λ d, preserving d = true) ds → (i ≤ j)%nat →
  trace (exec fs depth) ds st !! i = Some si →
  trace (exec fs depth) ds st !! j = Some sj →
  macros si ⊆ macros sj.
Proof.
  intros Hds. revert st i j. induction Hds as [|d ds Hd Hds IH]; intros st i j Hij.
  - destruct i as [|i]; [|by destruct i].
    destruct j as [|j]; [|by destruct j]. by intros [= <-] [= <-].
  - destruct i as [|i].
    + intros [= <-]. apply trace_from. by constructor.
    + destruct j as [|j]; [lia|]. simpl.
      destruct (exec fs depth d st) as [st1|e]; [|by destruct i].
      apply IH. lia.
Qed.

(** The trace of a block of guarded definitions, entry by entry. *)
Lemma trace_guard_block_cons fs depth entry tbl m :
  trace (exec fs depth) (guard_block (entry :: tbl)) (State [] m)
  = State [] m
    :: State [negb (defined entry.1 m)] m
    :: State [negb (defined entry.1 m)] (fallback entry m)
    :: trace (exec fs depth) (guard_block tbl) (State [] (fallback entry m)).
Proof.
  destruct entry as [name value].
  change (guard_block ((name, value) :: tbl))
    with (Ifndef name :: Define name value :: Endif :: guard_block tbl).
  unfold fallback, defined. simpl fst. simpl snd.
  simpl trace. rewrite !exec_unfold. simpl. unfold defined.
  destruct (m !! name) as [old|] eqn:Hm.
  - rewrite bool_decide_eq_true_2 by eauto. simpl.
    rewrite !exec_unfold. simpl. rewrite !exec_unfold. simpl. reflexivity.
  - rewrite bool_decide_eq_false_2 by (by intros [? ?]). simpl.
    rewrite !exec_unfold. simpl. rewrite define_fresh by done. simpl.
    rewrite !exec_unfold. simpl. reflexivity.
Qed.

(** In a block of guarded definitions, a [#define] line that is processed
    always finds its name undefined. *)
Lemma guarded_define_fresh fs depth tbl m i name value st :
  guard_block tbl !! i = Some (Define name value) →
  trace (exec fs depth) (guard_block tbl) (State [] m) !! i = Some st →
  active st = true → macros st !! name = None.
Proof.
  revert m i. induction tbl as [|entry tbl IH]; intros m i; [done|].
  rewrite trace_guard_block_cons.
  change (guard_block (entry :: tbl))
    with (Ifndef entry.1 :: Define entry.1 entry.2 :: Endif :: guard_block tbl).
  destruct i as [|[|[|i]]]; simpl; try done.
  - intros [= <- <-] [= <-]. unfold active, defined. simpl.
    intros Hact%negb_true_iff%bool_decide_eq_false.
    by apply eq_None_not_Some.
  - apply IH.
Qed.

Lemma fallback_defined entry m : is_Some (fallback entry m !! entry.1).
Proof.
  unfold fallback. destruct (m !! entry.1) as [old|] eqn:Hm; [eauto|].
  rewrite lookup_insert_eq. eauto.
Qed.

(** In a block of guarded definitions, the name of a [#define] line is
    defined in the state after that line, processed or skipped. *)
Lemma guarded_define_defined fs depth tbl m i name value st :
  guard_block tbl !! i = Some (Define name value) →
  trace (exec fs depth) (guard_block tbl) (State [] m) !! S i = Some st →
  is_Some (macros st !! name).
Proof.
  revert m i. induction tbl as [|entry tbl IH]; intros m i; [done|].
  rewrite trace_guard_block_cons.
  change (guard_block (entry :: tbl))
    with (Ifndef entry.1 :: Define entry.1 entry.2 :: Endif :: guard_block tbl).
  destruct i as [|[|[|i]]]; simpl; try done.
  - intros [= <- <-] [= <-]. apply fallback_defined.
  - apply IH.
Qed.

(** ** The table and the header's text *)

Lemma table_length : length table = 24%nat.
Proof. reflexivity. Qed.

Lemma symbols_NoDup : NoDup symbols.
Proof. apply (bool_decide_unpack _). vm_compute. exact I. Qed.

Lemma guards_preserving : Forall (λ d, preserving d = true) guards.
Proof. apply (bool_decide_unpack _). vm_compute. exact I. Qed.

(** The fallback map binds exactly the symbols of the table, each to the
    value in its row. *)
Lemma fallback_map_lookup sym v :
  (sym, v) ∈ table → (list_to_map table : gmap string Z) !! sym = Some v.
Proof. apply elem_of_list_to_map_1, symbols_NoDup. Qed.

Lemma fallback_map_Some sym :
  sym ∈ symbols → is_Some ((list_to_map table : gmap string Z) !! sym).
Proof.
  unfold symbols. intros ([sym' v] & -> & Hin)%list_elem_of_fmap.
  exists v. by apply fallback_map_lookup.
Qed.

Lemma fallback_map_None name :
  name ∉ symbols → (list_to_map table : gmap string Z) !! name = None.
Proof. apply not_elem_of_list_to_map_1. Qed.

(** After the guarded definitions every binding that was there is still
    there. *)
Lemma guards_subseteq (m : gmap string Z) : m ⊆ m ∪ list_to_map table.
Proof. apply map_union_subseteq_l. Qed.

(** The step of line 1, read off a successful inclusion. *)
Lemma include_step fs depth f (m m1 : gmap string Z) :
  preprocess fs depth [Include f] m = Ok m1 →
  exec fs depth (Include f) (State [] m) = Ok (State [] m1).
Proof.
  unfold preprocess, file. rewrite run_singleton.
  intros ([cs m1'] & Hstep & Hend)%bind_Ok_inv.
  pose proof (exec_Include_conds _ _ _ _ _ Hstep) as Hcs.
  simpl in Hcs, Hend. subst cs. by injection Hend as ->.
Qed.

(** Distinct second components determine the first. *)
Lemma NoDup_snd_inj {A B : Type} (l : list (A * B)) a1 a2 b :
  NoDup l.*2 → (a1, b) ∈ l → (a2, b) ∈ l → a1 = a2.
Proof.
  induction l as [|[a b'] l IH]; [by intros _ ?%elem_of_nil|].
  rewrite fmap_cons. intros [Hnotin Hnd]%NoDup_cons.
  assert (∀ a', (a', b') ∈ l → b' ∈ l.*2) as Hsnd.
  { intros a' Hin. apply list_elem_of_fmap. by exists (a', b'). }
  simpl in Hnotin.
  intros [H1|H1]%elem_of_cons [H2|H2]%elem_of_cons; simplify_eq.
  - reflexivity.
  - by apply Hsnd in H2.
  - by apply Hsnd in H1.
  - by apply IH.
Qed.

Example old_platform_defines_EV_KEY :
  ∃ m', preprocess old_platform 200 input_defs_h ∅ = Ok m'
        ∧ m' !! "EV_KEY" = Some 0x01.
Proof.
  assert ((m ← preprocess old_platform 200 input_defs_h ∅; Ok (m !! "EV_KEY"))
          = Ok (Some 0x01)) as H by (vm_compute; reflexivity).
  apply bind_Ok_inv in H as (m' & Hrun & [= Hm']). eauto.
Qed.

Example EV_KEY_outside_table : "EV_KEY" ∉ symbols.
Proof. apply (bool_decide_unpack _). vm_compute. exact I. Qed.

(** ** Tables of replacements *)

Lemma repl_run_app exec ds1 ds2 st :
  Replacements.run exec (ds1 ++ ds2) st
  = (Replacements.run exec ds1 st ≫= Replacements.run exec ds2).
Proof.
  revert st. induction ds1 as [|d ds1 IH]; intros st; [reflexivity|].
  simpl. destruct (exec d st) as [st'|e]; simpl; [apply IH | reflexivity].
Qed.

Lemma repl_run_singleton exec d st : Replacements.run exec [d] st = exec d st.
Proof. simpl. by destruct (exec d st). Qed.

Lemma repl_exec_unfold fs depth d st :
  Replacements.exec fs depth d st =
  if Replacements.active st then
    match d with
    | Include f =>
        match depth with
        | O => Err (NestingTooDeep f)
        | S depth' =>
            match fs f with
            | None => Err (MissingFile f)
            | Some ds =>
                m ← Replacements.file (Replacements.exec fs depth') ds
                      (Replacements.macros st);
                Ok (Replacements.State (Replacements.conds st) m)
            end
        end
    | Ifndef name =>
        Ok (Replacements.State
              (negb (Replacements.defined name (Replacements.macros st))
               :: Replacements.conds st)
              (Replacements.macros st))
    | Define name value =>
        m ← Replacements.define name value (Replacements.macros st);
        Ok (Replacements.State (Replacements.conds st) m)
    | Undef name =>
        Ok (Replacements.State (Replacements.conds st)
              (delete name (Replacements.macros st)))
    | Endif => Replacements.endif st
    end
  else
    match d with
    | Ifndef _ =>
        Ok (Replacements.State (false :: Replacements.conds st)
              (Replacements.macros st))
    | Endif => Replacements.endif st
    | Include _ | Define _ _ | Undef _ => Ok st
    end.
Proof. destruct depth; reflexivity. Qed.

Lemma repl_define_fresh name value (m : gmap string replacement) :
  m !! name = None →
  Replacements.define name value m = Ok (<[name := Integer value]> m).
Proof. unfold Replacements.define. by intros ->. Qed.

(** One guarded definition over a table of replacements: a name that is
    defined, with whatever replacement, is left alone. *)
Lemma repl_run_guard fs depth entry (m : gmap string replacement) :
  Replacements.run (Replacements.exec fs depth) (guard entry)
    (Replacements.State [] m)
  = Ok (Replacements.State [] (Replacements.fallback entry m)).
Proof.
  destruct entry as [name value].
  unfold guard, Replacements.fallback. simpl fst. simpl snd.
  simpl Replacements.run. rewrite repl_exec_unfold.
  cbn [Replacements.active Replacements.conds Replacements.macros].
  rewrite bind_Ok. unfold Replacements.defined.
  destruct (m !! name) as [old|] eqn:Hm.
  - rewrite bool_decide_eq_true_2 by eauto. cbn [negb].
    rewrite repl_exec_unfold.
    cbn [Replacements.active Replacements.conds]. rewrite bind_Ok.
    rewrite repl_exec_unfold. reflexivity.
  - rewrite bool_decide_eq_false_2 by (by intros [? ?]). cbn [negb].
    rewrite repl_exec_unfold.
    cbn [Replacements.active Replacements.conds Replacements.macros].
    rewrite repl_define_fresh by done. rewrite !bind_Ok.
    rewrite repl_exec_unfold. reflexivity.
Qed.

Lemma repl_fallback_union entry (m fb : gmap string replacement) :
  Replacements.fallback entry m ∪ fb = m ∪ <[entry.1 := Integer entry.2]> fb.
Proof.
  destruct entry as [name value]. unfold Replacements.fallback. simpl.
  destruct (m !! name) as [old|] eqn:Hm.
  - apply map_eq. intros k. rewrite !lookup_union.
    destruct (decide (name = k)) as [<-|Hne].
    + rewrite Hm, lookup_insert_eq. by destruct (fb !! name).
    + by rewrite lookup_insert_ne.
  - by rewrite <-insert_union_l, insert_union_r.
Qed.

Lemma repl_run_guard_block fs depth tbl (m : gmap string replacement) :
  Replacements.run (Replacements.exec fs depth) (guard_block tbl)
    (Replacements.State [] m)
  = Ok (Replacements.State [] (m ∪ integers (list_to_map tbl))).
Proof.
  revert m. induction tbl as [|entry tbl IH]; intros m.
  - simpl. unfold integers. by rewrite fmap_empty, (right_id_L ∅ (∪)).
  - destruct entry as [name value].
    change (guard_block ((name, value) :: tbl))
      with (guard (name, value) ++ guard_block tbl).
    rewrite repl_run_app, repl_run_guard, bind_Ok, IH.
    rewrite repl_fallback_union. unfold integers.
    by rewrite list_to_map_cons, fmap_insert.
Qed.

Lemma repl_exec_Include_conds fs depth f st st' :
  Replacements.exec fs depth (Include f) st = Ok st' →
  Replacements.conds st' = Replacements.conds st.
Proof.
  rewrite repl_exec_unfold.
  destruct (Replacements.active st); [|by intros ->%Ok_inj].
  destruct depth; [discriminate|].
  destruct (fs f); [|discriminate].
  intros (m & _ & Hst)%bind_Ok_inv. apply Ok_inj in Hst. by subst st'.
Qed.

(** The whole header over a table of replacements. *)
Lemma repl_preprocess_input_defs_h fs depth (m : gmap string replacement) :
  Replacements.preprocess fs depth input_defs_h m
  = (m1 ← Replacements.preprocess fs depth [Include "linux/input.h"] m;
     Ok (m1 ∪ integers (list_to_map table))).
Proof.
  unfold Replacements.preprocess, Replacements.file.
  change input_defs_h with ([Include "linux/input.h"] ++ guard_block table).
  rewrite repl_run_app, repl_run_singleton.
  destruct (Replacements.exec fs depth (Include "linux/input.h")
              (Replacements.State [] m)) as [[cs m1]|e] eqn:Hinc;
    [|reflexivity].
  apply repl_exec_Include_conds in Hinc. simpl in Hinc. subst cs.
  rewrite !bind_Ok. cbn [Replacements.conds Replacements.macros].
  by rewrite repl_run_guard_block.
Qed.

Lemma integers_lookup (m : gmap string Z) name :
  integers m !! name = Integer <$> m !! name.
Proof. apply lookup_fmap. Qed.

(** On tables of integers the two preprocessors agree, step by step. *)
Lemma repl_define_integers name value (m : gmap string Z) :
  Replacements.define name value (integers m) = integers <$> define name value m.
Proof.
  unfold Replacements.define, define. rewrite integers_lookup.
  destruct (m !! name) as [old|]; simpl.
  - by case_decide.
  - unfold integers. by rewrite fmap_insert.
Qed.

Lemma repl_defined_integers name (m : gmap string Z) :
  Replacements.defined name (integers m) = defined name m.
Proof.
  unfold Replacements.defined, defined. apply bool_decide_ext.
  rewrite integers_lookup. apply fmap_is_Some.
Qed.

Lemma repl_endif_lift st : Replacements.endif (lift st) = lift <$> endif st.
Proof. destruct st as [[|b cs] m]; reflexivity. Qed.

Lemma repl_run_lift e e' ds st :
  (∀ d st0, e' d (lift st0) = lift <$> e d st0) →
  Replacements.run e' ds (lift st) = lift <$> run e ds st.
Proof.
  intros Hstep. revert st. induction ds as [|d ds IH]; intros st; [reflexivity|].
  simpl. rewrite Hstep. destruct (e d st) as [st1|err]; [|reflexivity].
  apply IH.
Qed.

Lemma repl_file_integers e e' ds (m : gmap string Z) :
  (∀ d st0, e' d (lift st0) = lift <$> e d st0) →
  Replacements.file e' ds (integers m) = integers <$> file e ds m.
Proof.
  intros Hstep. unfold Replacements.file, file.
  change (Replacements.State [] (integers m)) with (lift (State [] m)).
  rewrite (repl_run_lift e e' ds _ Hstep).
  destruct (run e ds (State [] m)) as [[[|b cs] m1]|err]; reflexivity.
Qed.

Lemma repl_exec_lift fs depth d st :
  Replacements.exec fs depth d (lift st) = lift <$> exec fs depth d st.
Proof.
  revert d st. induction depth as [|depth IH]; intros d [cs m];
    rewrite repl_exec_unfold, exec_unfold;
    change (Replacements.active (lift (State cs m))) with (active (State cs m));
    destruct (active (State cs m));
    destruct d as [f|name|name value|name|];
    cbn [lift Replacements.macros Replacements.conds macros conds];
    try reflexivity;
    try (rewrite repl_defined_integers; reflexivity);
    try (rewrite repl_define_integers; by destruct (define name value m));
    try (rewrite fmap_Ok; unfold lift, integers; cbn [macros conds];
         rewrite fmap_delete; reflexivity);
    try apply (repl_endif_lift (State cs m)).
  destruct (fs f) as [ds|]; [|reflexivity].
  rewrite (repl_file_integers (exec fs depth) (Replacements.exec fs depth) _ _ IH).
  by destruct (file (exec fs depth) ds m).
Qed.

(** The preprocessor over replacements, started from a table of integers,
    is the preprocessor over integers. *)
Lemma repl_preprocess_integers fs depth ds (m : gmap string Z) :
  Replacements.preprocess fs depth ds (integers m)
  = integers <$> preprocess fs depth ds m.
Proof.
  unfold Replacements.preprocess, preprocess.
  apply repl_file_integers. intros d st0. apply repl_exec_lift.
Qed.

Example header_keeps_empty_replacement :
  (m ← Replacements.preprocess old_platform 200 input_defs_h empty_BTN_EAST;
   Ok (m !! "BTN_EAST", m !! "BTN_SOUTH", m !! "EV_KEY"))
  = Ok (Some (Text ""), Some (Integer 0x130), Some (Integer 0x01)).
Proof. vm_compute. reflexivity. Qed.

Example unguarded_define_over_text_conflicts :
  Replacements.preprocess no_headers 0 [Define "BTN_EAST" 0x131] empty_BTN_EAST
  = Err (RedefinedText "BTN_EAST" "" 0x131).
Proof. vm_compute. reflexivity. Qed.

Example old_platform_keeps_empty_BTN_EAST :
  Replacements.preprocess old_platform 200 [Include "linux/input.h"] empty_BTN_EAST
  = Ok (integers old_macros ∪ empty_BTN_EAST).
Proof. apply (bool_decide_unpack _). vm_compute. exact I. Qed.

Example BTN_EAST_in_table : "BTN_EAST" ∈ symbols.
Proof. apply (bool_decide_unpack _). vm_compute. exact I. Qed.

(** ** Properties of the header *)

(** C1. For each of the 24 symbols of the constant table: when the symbol is
    not defined in the macro table that reaches the guarded definitions,
    preprocessing them succeeds and leaves the symbol defined, bound to
    exactly the fallback value in its row of the table. *)
Theorem fallback_when_undefined fs depth sym v (m : gmap string Z) :
  (sym, v) ∈ table → m !! sym = None →
  ∃ m', preprocess fs depth guards m = Ok m' ∧ m' !! sym = Some v.
Proof.
  intros Hin Hm. rewrite preprocess_guards. eexists; split; [reflexivity|].
  rewrite lookup_union_r by done. by apply fallback_map_lookup.
Qed.

Lemma fallback_when_undefined_witness :
  ("BTN_STRUM_BAR_DOWN", 0x22a) ∈ table
  ∧ ({["BTN_SOUTH" := 0x130]} : gmap string Z) !! "BTN_STRUM_BAR_DOWN" = None
  ∧ ∃ m', preprocess no_headers 0 guards {["BTN_SOUTH" := 0x130]} = Ok m'
          ∧ m' !! "BTN_STRUM_BAR_DOWN" = Some 0x22a.
Proof.
  assert (("BTN_STRUM_BAR_DOWN", 0x22a) ∈ table) as Hin
    by (apply (bool_decide_unpack _); vm_compute; exact I).
  assert (({["BTN_SOUTH" := 0x130]} : gmap string Z) !! "BTN_STRUM_BAR_DOWN" = None)
    as Hm by (vm_compute; reflexivity).
  exact (conj Hin (conj Hm (fallback_when_undefined no_headers 0 _ _ _ Hin Hm))).
Defined.

(** C2. For each of the 24 symbols: when the symbol is already defined, to
    whatever value, preprocessing the guarded definitions succeeds and the
    symbol is bound to that same value afterwards. *)
Theorem predefined_value_kept fs depth sym old (m : gmap string Z) :
  sym ∈ symbols → m !! sym = Some old →
  ∃ m', preprocess fs depth guards m = Ok m' ∧ m' !! sym = Some old.
Proof.
  intros _ Hm. rewrite preprocess_guards. eexists; split; [reflexivity|].
  by apply lookup_union_Some_l.
Qed.

Lemma predefined_value_kept_witness :
  "BTN_EAST" ∈ symbols
  ∧ ({["BTN_EAST" := 7]} : gmap string Z) !! "BTN_EAST" = Some 7
  ∧ ∃ m', preprocess no_headers 0 guards {["BTN_EAST" := 7]} = Ok m'
          ∧ m' !! "BTN_EAST" = Some 7.
Proof.
  assert ("BTN_EAST" ∈ symbols) as Hin
    by (apply (bool_decide_unpack _); vm_compute; exact I).
  assert (({["BTN_EAST" := 7]} : gmap string Z) !! "BTN_EAST" = Some 7)
    as Hm by (vm_compute; reflexivity).
  exact (conj Hin (conj Hm (predefined_value_kept no_headers 0 _ _ _ Hin Hm))).
Defined.

(** C3, as stated, fails: the guards ask whether a name is defined, not
    what it stands for.  Start from the macro table in which BTN_EAST is
    defined with an empty replacement, on the platform of [old_input_h]:
    line 1 is preprocessed without error, the whole header is, and
    afterwards BTN_EAST still has its empty replacement, so it does not
    resolve to an integer. *)
Lemma empty_replacement_is_kept :
  ¬ (∀ fs depth (m m1 : gmap string replacement),
       Replacements.preprocess fs depth [Include "linux/input.h"] m = Ok m1 →
       ∃ m', Replacements.preprocess fs depth input_defs_h m = Ok m'
             ∧ ∀ sym, sym ∈ symbols → ∃ z : Z, m' !! sym = Some (Integer z)).
Proof.
  intros Hclaim.
  destruct (Hclaim old_platform 200%nat empty_BTN_EAST _
              old_platform_keeps_empty_BTN_EAST) as (m' & Hrun & Hint).
  rewrite repl_preprocess_input_defs_h, old_platform_keeps_empty_BTN_EAST,
    bind_Ok in Hrun.
  apply Ok_inj in Hrun. subst m'.
  destruct (Hint "BTN_EAST" BTN_EAST_in_table) as [z Hz].
  erewrite lookup_union_Some_l in Hz by (vm_compute; reflexivity).
  discriminate.
Qed.

(** C3, amended. Whenever the platform header of line 1 is preprocessed
    without error, leaving the macro table [m1], the whole header is, and
    afterwards each of the 24 symbols of the table (24 distinct names) is
    defined: a symbol that [m1] leaves undefined is bound to its integer
    fallback value, and a name that [m1] defines keeps the replacement it
    has there, integer constant or not.  So each of the 24 symbols resolves
    to an integer provided every symbol of the table that [m1] defines is
    defined there as an integer constant. *)
Theorem symbols_defined_after_inclusion fs depth (m m1 : gmap string replacement) :
  Replacements.preprocess fs depth [Include "linux/input.h"] m = Ok m1 →
  length symbols = 24%nat ∧ NoDup symbols
  ∧ ∃ m', Replacements.preprocess fs depth input_defs_h m = Ok m'
          ∧ (∀ sym, sym ∈ symbols → is_Some (m' !! sym))
          ∧ (∀ sym v, (sym, v) ∈ table → m1 !! sym = None →
               m' !! sym = Some (Integer v))
          ∧ (∀ sym r, m1 !! sym = Some r → m' !! sym = Some r)
          ∧ ((∀ sym r, sym ∈ symbols → m1 !! sym = Some r → ∃ z : Z, r = Integer z) →
             ∀ sym, sym ∈ symbols → ∃ z : Z, m' !! sym = Some (Integer z)).
Proof.
  intros Hinc. split; [reflexivity|]. split; [apply symbols_NoDup|].
  rewrite repl_preprocess_input_defs_h, Hinc, bind_Ok.
  eexists; split; [reflexivity|].
  assert (∀ sym v, (sym, v) ∈ table → m1 !! sym = None →
            (m1 ∪ integers (list_to_map table)) !! sym = Some (Integer v))
    as Hnew.
  { intros sym v Hin Hm1. rewrite lookup_union_r by done.
    by rewrite integers_lookup, (fallback_map_lookup sym v Hin). }
  assert (∀ sym r, m1 !! sym = Some r →
            (m1 ∪ integers (list_to_map table)) !! sym = Some r) as Hold.
  { intros sym r Hm1. by apply lookup_union_Some_l. }
  assert (∀ sym, sym ∈ symbols → ∃ v, (sym, v) ∈ table) as Hrow.
  { unfold symbols. intros sym ([sym' v] & -> & Hin)%list_elem_of_fmap. eauto. }
  split; [|split; [exact Hnew|split; [exact Hold|]]].
  - intros sym [v Hin]%Hrow.
    destruct (m1 !! sym) as [r|] eqn:Hm1; [rewrite (Hold _ _ Hm1)|rewrite (Hnew _ _ Hin Hm1)]; eauto.
  - intros Hints sym Hsym. destruct (Hrow sym Hsym) as [v Hin].
    destruct (m1 !! sym) as [r|] eqn:Hm1.
    + destruct (Hints sym r Hsym Hm1) as [z ->]. exists z. by apply Hold.
    + exists v. by apply Hnew.
Qed.

Lemma symbols_defined_after_inclusion_witness :
  length symbols = 24%nat ∧ NoDup symbols
  ∧ ∃ m', Replacements.preprocess old_platform 200 input_defs_h empty_BTN_EAST = Ok m'
          ∧ (∀ sym, sym ∈ symbols → is_Some (m' !! sym))
          ∧ (∀ sym v, (sym, v) ∈ table →
               (integers old_macros ∪ empty_BTN_EAST) !! sym = None →
               m' !! sym = Some (Integer v))
          ∧ (∀ sym r, (integers old_macros ∪ empty_BTN_EAST) !! sym = Some r →
               m' !! sym = Some r)
          ∧ ((∀ sym r, sym ∈ symbols →
                (integers old_macros ∪ empty_BTN_EAST) !! sym = Some r →
                ∃ z : Z, r = Integer z) →
             ∀ sym, sym ∈ symbols → ∃ z : Z, m' !! sym = Some (Integer z)).
Proof.
  apply (symbols_defined_after_inclusion old_platform 200 empty_BTN_EAST
           (integers old_macros ∪ empty_BTN_EAST)).
  apply (bool_decide_unpack _). vm_compute. exact I.
Defined.

(** C4, as stated, fails: the header's first line includes <linux/input.h>,
    and what that header defines is defined after inclusion.  On a platform
    whose <linux/input.h> is [old_input_h], starting from the empty macro
    table, the name EV_KEY is outside the table, undefined before inclusion
    and defined after it. *)
Lemma include_defines_outside_table :
  ¬ (∀ fs depth name (m m' : gmap string Z),
       name ∉ symbols →
       preprocess fs depth input_defs_h m = Ok m' →
       m' !! name = m !! name).
Proof.
  intros Hclaim.
  destruct old_platform_defines_EV_KEY as (m' & Hrun & Hm').
  pose proof (Hclaim old_platform 200%nat "EV_KEY" ∅ m'
                EV_KEY_outside_table Hrun) as Hsame.
  rewrite Hm' in Hsame. rewrite lookup_empty in Hsame. discriminate.
Qed.

(** C4, amended. For a name that is not one of the 24 symbols of the table:
    the guarded definitions leave its status as they find it, from any macro
    table; and after inclusion of the whole header the name has exactly the
    status that line 1, the inclusion of <linux/input.h>, gave it. *)
Theorem outside_table_untouched fs depth name (m m1 : gmap string Z) :
  name ∉ symbols →
  preprocess fs depth [Include "linux/input.h"] m = Ok m1 →
  (∃ m', preprocess fs depth input_defs_h m = Ok m' ∧ m' !! name = m1 !! name)
  ∧ (∀ m0 : gmap string Z,
       ∃ m0', preprocess fs depth guards m0 = Ok m0' ∧ m0' !! name = m0 !! name).
Proof.
  intros Hout Hinc.
  assert (∀ m0 : gmap string Z, (m0 ∪ list_to_map table) !! name = m0 !! name)
    as Hframe.
  { intros m0. rewrite lookup_union, (fallback_map_None name Hout).
    by destruct (m0 !! name). }
  split.
  - rewrite preprocess_input_defs_h, Hinc, bind_Ok. eauto.
  - intros m0. rewrite preprocess_guards. eauto.
Qed.

Lemma outside_table_untouched_witness :
  (∃ m', preprocess old_platform 200 input_defs_h {["KEY_A" := 30]} = Ok m'
         ∧ m' !! "KEY_A" = (old_macros ∪ {["KEY_A" := 30]}) !! "KEY_A")
  ∧ (∀ m0 : gmap string Z,
       ∃ m0', preprocess old_platform 200 guards m0 = Ok m0'
              ∧ m0' !! "KEY_A" = m0 !! "KEY_A").
Proof.
  apply (outside_table_untouched old_platform 200 "KEY_A" {["KEY_A" := 30]}
           (old_macros ∪ {["KEY_A" := 30]})).
  - apply (bool_decide_unpack _). vm_compute. exact I.
  - vm_compute. reflexivity.
Defined.

(** C5, as stated, fails: inclusion of the header does not always succeed.
    On a platform without <linux/input.h>, from the empty macro table,
    preprocessing stops at line 1 with an error. *)
Lemma inclusion_can_fail :
  ¬ (∀ fs depth (m : gmap string Z),
       ∃ m', preprocess fs depth input_defs_h m = Ok m').
Proof.
  intros Hclaim. destruct (Hclaim no_headers 200%nat ∅) as [m' Hrun].
  rewrite header_without_platform_header in Hrun. discriminate.
Qed.

(** C5, amended. The guarded definitions never stop with an error, whatever
    the macro table they start from: no redefinition can arise, because each
    [#define] line that is processed finds its name undefined (and the trace
    has all 73 states, nothing stops it early).  The whole header succeeds
    whenever line 1 does, and when line 1 stops with an error the header
    stops with that error: line 1 is the only line that can fail. *)
Theorem inclusion_fails_only_at_line_1 fs depth (m : gmap string Z) :
  (∃ m', preprocess fs depth guards m = Ok m')
  ∧ length (trace (exec fs depth) guards (State [] m)) = 73%nat
  ∧ (∀ i name value st,
       guards !! i = Some (Define name value) →
       trace (exec fs depth) guards (State [] m) !! i = Some st →
       active st = true →
       macros st !! name = None)
  ∧ (∀ m1, preprocess fs depth [Include "linux/input.h"] m = Ok m1 →
       ∃ m', preprocess fs depth input_defs_h m = Ok m')
  ∧ (∀ e, preprocess fs depth [Include "linux/input.h"] m = Err e →
       preprocess fs depth input_defs_h m = Err e).
Proof.
  split; [rewrite preprocess_guards; eauto|]. split; [|split; [|split]].
  - pose proof (run_guard_block fs depth table m) as Hrun.
    apply trace_run in Hrun as [Hlen _]. exact Hlen.
  - intros i name value st. change guards with (guard_block table).
    apply guarded_define_fresh.
  - intros m1 Hinc. rewrite preprocess_input_defs_h, Hinc, bind_Ok. eauto.
  - intros e Hinc. by rewrite preprocess_input_defs_h, Hinc.
Qed.

(** C6. Suppose line 1, the inclusion of the platform header, is
    preprocessed without error.  Then: the header contains no [#undef]; its
    trace is complete (74 states: before line 1 and after each of the 73
    directives); from the state after line 1 on, a name bound to a value at
    one step is bound to the same value at every later step; each [#define]
    line of the header leaves its name bound to a value that every later
    state has too; and the last state of the trace is the macro table the
    header leaves behind. *)
Theorem bindings_never_change fs depth (m m1 : gmap string Z) :
  preprocess fs depth [Include "linux/input.h"] m = Ok m1 →
  (∀ name, Undef name ∉ input_defs_h)
  ∧ length (trace (exec fs depth) input_defs_h (State [] m)) = 74%nat
  ∧ (∀ i j si sj sym v,
       (1 ≤ i ≤ j)%nat →
       trace (exec fs depth) input_defs_h (State [] m) !! i = Some si →
       trace (exec fs depth) input_defs_h (State [] m) !! j = Some sj →
       macros si !! sym = Some v → macros sj !! sym = Some v)
  ∧ (∀ k name value,
       input_defs_h !! k = Some (Define name value) →
       ∃ v, ∀ j sj,
         (k < j)%nat →
         trace (exec fs depth) input_defs_h (State [] m) !! j = Some sj →
         macros sj !! name = Some v)
  ∧ (∃ final,
       trace (exec fs depth) input_defs_h (State [] m) !! 73%nat = Some final
       ∧ preprocess fs depth input_defs_h m = Ok (macros final)).
Proof.
  intros Hinc.
  assert (trace (exec fs depth) input_defs_h (State [] m)
          = State [] m :: trace (exec fs depth) guards (State [] m1)) as ->.
  { unfold input_defs_h. simpl. by rewrite (include_step _ _ _ _ _ Hinc). }
  pose proof (run_guard_block fs depth table m1) as Hrun.
  apply trace_run in Hrun as [Hlen Hlast].
  change (guard_block table) with guards in Hlen, Hlast.
  assert (∀ i j si sj,
            (i ≤ j)%nat →
            trace (exec fs depth) guards (State [] m1) !! i = Some si →
            trace (exec fs depth) guards (State [] m1) !! j = Some sj →
            macros si ⊆ macros sj) as Hchain.
  { intros i j si sj Hij. apply trace_chain; [apply guards_preserving | exact Hij]. }
  split; [|split; [|split; [|split]]].
  - intros name [[=]|Hin]%elem_of_cons.
    pose proof guards_preserving as Hall. rewrite Forall_forall in Hall.
    by apply Hall in Hin.
  - change (S (length (trace (exec fs depth) guards (State [] m1))) = 74%nat).
    by rewrite Hlen.
  - intros i j si sj sym v [Hi Hij].
    destruct i as [|i]; [lia|]. destruct j as [|j]; [lia|].
    intros Hsi Hsj Hv. eapply lookup_weaken; [exact Hv|].
    eapply (Hchain i j); [lia | exact Hsi | exact Hsj].
  - intros [|k] name value Hk; [discriminate|].
    change (guards !! k = Some (Define name value)) in Hk.
    destruct (lookup_lt_is_Some_2 (trace (exec fs depth) guards (State [] m1)) (S k))
      as [sk Hsk].
    { rewrite Hlen. apply lookup_lt_Some in Hk. lia. }
    destruct (guarded_define_defined fs depth table m1 k name value sk Hk Hsk)
      as [v Hv].
    exists v. intros [|j] sj Hkj Hsj; [lia|].
    eapply lookup_weaken; [exact Hv|].
    eapply (Hchain (S k) j); [lia | exact Hsk | exact Hsj].
  - eexists. split; [exact Hlast|].
    by rewrite preprocess_input_defs_h, Hinc.
Qed.

Lemma bindings_never_change_witness :
  (∀ name, Undef name ∉ input_defs_h)
  ∧ length (trace (exec old_platform 200) input_defs_h (State [] ∅)) = 74%nat
  ∧ (∀ i j si sj sym v,
       (1 ≤ i ≤ j)%nat →
       trace (exec old_platform 200) input_defs_h (State [] ∅) !! i = Some si →
       trace (exec old_platform 200) input_defs_h (State [] ∅) !! j = Some sj →
       macros si !! sym = Some v → macros sj !! sym = Some v)
  ∧ (∀ k name value,
       input_defs_h !! k = Some (Define name value) →
       ∃ v, ∀ j sj,
         (k < j)%nat →
         trace (exec old_platform 200) input_defs_h (State [] ∅) !! j = Some sj →
         macros sj !! name = Some v)
  ∧ (∃ final,
       trace (exec old_platform 200) input_defs_h (State [] ∅) !! 73%nat = Some final
       ∧ preprocess old_platform 200 input_defs_h ∅ = Ok (macros final)).
Proof.
  apply (bindings_never_change old_platform 200 ∅ old_macros).
  vm_compute. reflexivity.
Defined.

(** C7. Preprocessing the guarded definitions a second time changes
    nothing: from any macro table, one pass succeeds with some table [m'],
    a pass started from [m'] returns [m'] again, and so does one pass over
    the definitions written out twice. *)
Theorem inclusion_idempotent fs depth (m : gmap string Z) :
  ∃ m', preprocess fs depth guards m = Ok m'
        ∧ preprocess fs depth guards m' = Ok m'
        ∧ (m1 ← preprocess fs depth guards m; preprocess fs depth guards m1) = Ok m'
        ∧ preprocess fs depth (guards ++ guards) m = Ok m'.
Proof.
  assert (∀ m0 : gmap string Z,
            m0 ∪ list_to_map table ∪ list_to_map table = m0 ∪ list_to_map table)
    as Hidem.
  { intros m0. by rewrite <-(assoc_L (∪)), (idemp_L (∪)). }
  exists (m ∪ list_to_map table). repeat split.
  - apply preprocess_guards.
  - by rewrite preprocess_guards, Hidem.
  - by rewrite preprocess_guards, bind_Ok, preprocess_guards, Hidem.
  - unfold preprocess, file. change guards with (guard_block table).
    by rewrite run_app, !run_guard_block, bind_Ok, run_guard_block, bind_Ok, Hidem.
Qed.

(** C8. The 24 values bound by the header's [#define] lines are pairwise
    distinct; so, from a macro table in which none of the 24 symbols is
    defined, preprocessing the guarded definitions succeeds, binds every
    symbol of the table to one of these values, the one in its row, and
    binds different symbols to different values. *)
Theorem fallback_values_distinct :
  length (fallback_values input_defs_h) = 24%nat
  ∧ NoDup (fallback_values input_defs_h)
  ∧ ∀ fs depth (m : gmap string Z),
      (∀ sym, sym ∈ symbols → m !! sym = None) →
      ∃ m', preprocess fs depth guards m = Ok m'
            ∧ (∀ sym v, (sym, v) ∈ table →
                 m' !! sym = Some v ∧ v ∈ fallback_values input_defs_h)
            ∧ (∀ sym, sym ∈ symbols → is_Some (m' !! sym))
            ∧ (∀ s1 s2 v1 v2, s1 ∈ symbols → s2 ∈ symbols → s1 ≠ s2 →
                 m' !! s1 = Some v1 → m' !! s2 = Some v2 → v1 ≠ v2).
Proof.
  assert (NoDup (fallback_values input_defs_h)) as Hnd
    by (apply (bool_decide_unpack _); vm_compute; exact I).
  split; [reflexivity|]. split; [exact Hnd|].
  intros fs depth m Hm. rewrite preprocess_guards.
  eexists; split; [reflexivity|].
  assert (∀ sym, sym ∈ symbols →
            (m ∪ list_to_map table) !! sym
            = (list_to_map table : gmap string Z) !! sym) as Hfb.
  { intros sym Hsym. by rewrite lookup_union_r by auto. }
  assert (∀ sym v, (sym, v) ∈ table → sym ∈ symbols) as Hsym.
  { intros sym v Hin. unfold symbols. apply list_elem_of_fmap. by exists (sym, v). }
  split; [|split].
  - intros sym v Hin. split.
    + rewrite Hfb by eauto. by apply fallback_map_lookup.
    + change (fallback_values input_defs_h) with (table.*2).
      apply list_elem_of_fmap. by exists (sym, v).
  - intros sym Hin. rewrite Hfb by done. by apply fallback_map_Some.
  - intros s1 s2 v1 v2 Hs1 Hs2 Hne. rewrite !Hfb by done.
    intros H1%elem_of_list_to_map_2 H2%elem_of_list_to_map_2 ->.
    apply Hne. eapply (NoDup_snd_inj table); [exact Hnd | exact H1 | exact H2].
Qed.

(** C9. The outcome of preprocessing the header (the macro table it leaves
    behind, or the error it stops with) is a function of the macro table it
    starts from: two tables that bind the same names to the same values give
    the same outcome.  For the guarded definitions the outcome depends on
    nothing else, neither on the platform's headers nor on the nesting
    budget. *)
Theorem inclusion_deterministic fs depth (m1 m2 : gmap string Z) :
  (∀ name, m1 !! name = m2 !! name) →
  preprocess fs depth input_defs_h m1 = preprocess fs depth input_defs_h m2
  ∧ ∀ fs' depth', preprocess fs' depth' guards m1 = preprocess fs depth guards m2.
Proof.
  intros ->%map_eq. split; [reflexivity|].
  intros fs' depth'. by rewrite !preprocess_guards.
Qed.

Lemma inclusion_deterministic_witness :
  preprocess old_platform 200 input_defs_h (<["ABS_BASS" := 7]> {["BTN_WEST" := 9]})
  = preprocess old_platform 200 input_defs_h (<["BTN_WEST" := 9]> {["ABS_BASS" := 7]})
  ∧ ∀ fs' depth',
      preprocess fs' depth' guards (<["ABS_BASS" := 7]> {["BTN_WEST" := 9]})
      = preprocess old_platform 200 guards (<["BTN_WEST" := 9]> {["ABS_BASS" := 7]}).
Proof.
  apply (inclusion_deterministic old_platform 200).
  intros name. vm_compute. reflexivity.
Defined.

(** ** The header as a whole *)

(** X1. When the platform header of line 1 is preprocessed without error
    and leaves a symbol of the table undefined, the whole header is
    preprocessed without error and binds the symbol to its fallback value. *)
Theorem header_fallback fs depth sym v (m m1 : gmap string Z) :
  (sym, v) ∈ table →
  preprocess fs depth [Include "linux/input.h"] m = Ok m1 →
  m1 !! sym = None →
  ∃ m', preprocess fs depth input_defs_h m = Ok m' ∧ m' !! sym = Some v.
Proof.
  intros Hin Hinc Hm1. rewrite preprocess_input_defs_h, Hinc, bind_Ok.
  eexists; split; [reflexivity|].
  rewrite lookup_union_r by done. by apply fallback_map_lookup.
Qed.

Lemma header_fallback_witness :
  ∃ m', preprocess new_platform 200 input_defs_h ∅ = Ok m'
        ∧ m' !! "ABS_WHAMMY_BAR" = Some 0x4b.
Proof.
  apply (header_fallback new_platform 200 "ABS_WHAMMY_BAR" 0x4b ∅ new_macros).
  - apply (bool_decide_unpack _). vm_compute. exact I.
  - vm_compute. reflexivity.
  - vm_compute. reflexivity.
Defined.

(** X2. When the platform header of line 1 is preprocessed without error
    and defines a symbol of the table, the whole header is preprocessed
    without error and the symbol keeps the platform's value. *)
Theorem header_keeps_platform_value fs depth sym old (m m1 : gmap string Z) :
  sym ∈ symbols →
  preprocess fs depth [Include "linux/input.h"] m = Ok m1 →
  m1 !! sym = Some old →
  ∃ m', preprocess fs depth input_defs_h m = Ok m' ∧ m' !! sym = Some old.
Proof.
  intros _ Hinc Hm1. rewrite preprocess_input_defs_h, Hinc, bind_Ok.
  eexists; split; [reflexivity|]. by apply lookup_union_Some_l.
Qed.

Lemma header_keeps_platform_value_witness :
  ∃ m', preprocess new_platform 200 input_defs_h ∅ = Ok m'
        ∧ m' !! "BTN_DPAD_UP" = Some 0x220.
Proof.
  apply (header_keeps_platform_value new_platform 200 "BTN_DPAD_UP" 0x220 ∅ new_macros).
  - apply (bool_decide_unpack _). vm_compute. exact I.
  - vm_compute. reflexivity.
  - vm_compute. reflexivity.
Defined.

(** X3. The header depends on the platform header: where <linux/input.h>
    cannot be found, preprocessing input-defs.h stops at line 1 with an
    error, whatever the macro table, and none of the fallbacks is defined. *)
Theorem header_needs_platform_header fs depth (m : gmap string Z) :
  fs "linux/input.h" = None →
  preprocess fs (S depth) input_defs_h m = Err (MissingFile "linux/input.h").
Proof.
  intros Hfs. unfold preprocess, file.
  change input_defs_h with ([Include "linux/input.h"] ++ guards).
  rewrite run_app, run_singleton, exec_unfold. simpl. by rewrite Hfs.
Qed.

Lemma header_needs_platform_header_witness :
  preprocess no_headers 200 input_defs_h {["BTN_EAST" := 0x131]}
  = Err (MissingFile "linux/input.h").
Proof.
  apply (header_needs_platform_header no_headers 199). reflexivity.
Defined.

(** ** Composition with the text around the header *)

Lemma preprocess_guard_block fs depth tbl (m : gmap string Z) :
  preprocess fs depth (guard_block tbl) m = Ok (m ∪ list_to_map tbl).
Proof. unfold preprocess, file. by rewrite run_guard_block. Qed.

(** One guarded definition inside any conditional group: the group's stack
    is restored, and a skipped group rules out any effect. *)
Lemma run_guard_any fs depth entry st :
  run (exec fs depth) (guard entry) st
  = Ok (State (conds st)
          (if active st then fallback entry (macros st) else macros st)).
Proof.
  destruct entry as [name value], st as [cs m].
  unfold guard, fallback, defined. simpl fst. simpl snd. simpl run.
  rewrite exec_unfold.
  destruct (active (State cs m)) eqn:Hact; rewrite bind_Ok.
  - unfold defined. simpl macros. simpl conds.
    destruct (m !! name) as [old|] eqn:Hm.
    + rewrite bool_decide_eq_true_2 by eauto. simpl negb.
      rewrite exec_unfold. simpl. rewrite exec_unfold. reflexivity.
    + rewrite bool_decide_eq_false_2 by (by intros [? ?]). simpl negb.
      rewrite exec_unfold. simpl. rewrite define_fresh by done. simpl.
      rewrite exec_unfold. reflexivity.
  - rewrite exec_unfold. simpl. rewrite exec_unfold. reflexivity.
Qed.

Lemma run_guard_block_any fs depth tbl st :
  run (exec fs depth) (guard_block tbl) st
  = Ok (State (conds st)
          (if active st then macros st ∪ list_to_map tbl else macros st)).
Proof.
  revert st. induction tbl as [|entry tbl IH]; intros [cs m].
  - simpl. destruct (active (State cs m)); [|done].
    by rewrite (right_id_L ∅ (∪)).
  - change (guard_block (entry :: tbl)) with (guard entry ++ guard_block tbl).
    rewrite run_app, run_guard_any, bind_Ok, IH.
    unfold active. simpl. destruct cs as [|[] cs]; simpl;
      by rewrite ?fallback_union.
Qed.

Lemma filter_ext_in {A : Type} (P Q : A → Prop)
    `{!∀ x, Decision (P x), !∀ x, Decision (Q x)} (l : list A) :
  (∀ x, x ∈ l → P x ↔ Q x) → filter P l = filter Q l.
Proof.
  induction l as [|a l IH]; intros Hext; [done|].
  assert (filter P l = filter Q l) as Htl.
  { apply IH. intros x Hx. apply Hext. by right. }
  assert (P a ↔ Q a) as Ha by (apply Hext; left).
  destruct (decide (P a)) as [HP|HP].
  - rewrite (filter_cons_True P) by done.
    rewrite (filter_cons_True Q) by (by apply Ha). by rewrite Htl.
  - rewrite (filter_cons_False P) by done.
    rewrite (filter_cons_False Q) by (by rewrite <-Ha). by rewrite Htl.
Qed.

(** The number of bindings a block of guarded definitions adds is the number
    of its names that were not defined. *)
Lemma size_union_fallbacks tbl (m : gmap string Z) :
  NoDup tbl.*1 →
  size (m ∪ list_to_map tbl)
  = (size m + length (filter (λ sym, m !! sym = None) tbl.*1))%nat.
Proof.
  revert m. induction tbl as [|[name value] tbl IH]; intros m.
  - intros _. simpl. rewrite (right_id_L ∅ (∪)). lia.
  - rewrite fmap_cons. simpl fst. intros [Hnotin Hnd]%NoDup_cons.
    rewrite list_to_map_cons.
    rewrite <-(fallback_union (name, value)), (IH _ Hnd).
    unfold fallback. simpl fst. simpl snd.
    destruct (m !! name) as [old|] eqn:Hm.
    + rewrite filter_cons_False by (by rewrite Hm). reflexivity.
    + rewrite filter_cons_True by done.
      rewrite map_size_insert_None by done.
      rewrite (filter_ext_in (λ sym, <[name:=value]> m !! sym = None)
                 (λ sym, m !! sym = None)).
      * simpl. lia.
      * intros sym Hsym. rewrite lookup_insert_ne; [done|].
        by intros ->.
Qed.

Lemma run_input_defs_h fs depth (m m1 : gmap string Z) :
  preprocess fs depth [Include "linux/input.h"] m = Ok m1 →
  run (exec fs depth) input_defs_h (State [] m)
  = Ok (State [] (m1 ∪ list_to_map table)).
Proof.
  intros Hinc%include_step.
  change input_defs_h with ([Include "linux/input.h"] ++ guard_block table).
  by rewrite run_app, run_singleton, Hinc, bind_Ok, run_guard_block.
Qed.

Lemma union_fallbacks_absorb tbl (m : gmap string Z) :
  Forall (λ entry, entry.1 ∈ symbols) tbl →
  m ∪ list_to_map table ∪ list_to_map tbl = m ∪ list_to_map table.
Proof.
  intros Hall. apply map_eq. intros name.
  rewrite <-(assoc_L (∪)), !lookup_union.
  destruct (decide (name ∈ symbols)) as [Hin|Hout].
  - destruct (fallback_map_Some name Hin) as [v ->].
    by destruct (m !! name), (list_to_map tbl !! name).
  - rewrite (not_elem_of_list_to_map_1 tbl name); [by destruct (m !! name), (list_to_map table !! name)|].
    intros ([name' v] & -> & Hentry)%list_elem_of_fmap.
    rewrite Forall_forall in Hall. by apply Hall in Hentry.
Qed.

(** X4. When line 1 is preprocessed without error, leaving the macro table
    [m1], inclusion of the header succeeds with a table that extends [m1];
    the names it defines are those of [m1] and the 24 symbols, no others;
    and it has as many bindings more than [m1] as there are symbols of the
    table that [m1] leaves undefined. *)
Theorem header_adds_exactly_missing fs depth (m m1 : gmap string Z) :
  preprocess fs depth [Include "linux/input.h"] m = Ok m1 →
  ∃ m', preprocess fs depth input_defs_h m = Ok m'
        ∧ m1 ⊆ m'
        ∧ dom m' = dom m1 ∪ list_to_set symbols
        ∧ size m' = (size m1 + length (filter (λ sym, m1 !! sym = None) symbols))%nat.
Proof.
  intros Hinc. rewrite preprocess_input_defs_h, Hinc, bind_Ok.
  eexists; split; [reflexivity|]. split; [apply guards_subseteq|]. split.
  - by rewrite dom_union_L, dom_list_to_map_L.
  - apply size_union_fallbacks, symbols_NoDup.
Qed.

Lemma header_adds_exactly_missing_witness :
  ∃ m', preprocess new_platform 200 input_defs_h ∅ = Ok m'
        ∧ new_macros ⊆ m'
        ∧ dom m' = dom new_macros ∪ list_to_set symbols
        ∧ size m' = (size new_macros
                     + length (filter (λ sym, new_macros !! sym = None) symbols))%nat.
Proof.
  apply (header_adds_exactly_missing new_platform 200 ∅ new_macros).
  vm_compute. reflexivity.
Defined.

(** X5. The order of the 24 guarded blocks does not matter: written in any
    other order, they give the same outcome from every macro table. *)
Theorem block_order_irrelevant fs depth tbl (m : gmap string Z) :
  tbl ≡ₚ table →
  preprocess fs depth (guard_block tbl) m = preprocess fs depth guards m
  ∧ ∃ m', preprocess fs depth guards m = Ok m'.
Proof.
  intros Hperm. rewrite preprocess_guard_block, preprocess_guards. split; [|eauto].
  f_equal. f_equal. symmetry. apply list_to_map_proper; [apply symbols_NoDup|].
  by symmetry.
Qed.

Lemma block_order_irrelevant_witness :
  preprocess no_headers 0 (guard_block (reverse table)) {["ABS_BASS" := 7]}
  = preprocess no_headers 0 guards {["ABS_BASS" := 7]}
  ∧ ∃ m', preprocess no_headers 0 guards {["ABS_BASS" := 7]} = Ok m'.
Proof.
  apply (block_order_irrelevant no_headers 0 (reverse table)).
  apply reverse_Permutation.
Defined.

(** X6. What a name is bound to after the guarded definitions depends on
    nothing but what that same name was bound to before: two macro tables
    that agree on a name give results that agree on it, whatever else they
    define. *)
Theorem final_binding_local fs depth name (m1 m2 : gmap string Z) :
  m1 !! name = m2 !! name →
  ∃ m1' m2', preprocess fs depth guards m1 = Ok m1'
             ∧ preprocess fs depth guards m2 = Ok m2'
             ∧ m1' !! name = m2' !! name.
Proof.
  intros Hsame. rewrite !preprocess_guards.
  eexists _, _. split; [reflexivity|]. split; [reflexivity|].
  by rewrite !lookup_union, Hsame.
Qed.

Lemma final_binding_local_witness :
  ∃ m1' m2',
    preprocess no_headers 0 guards {["BTN_WEST" := 9]} = Ok m1'
    ∧ preprocess no_headers 0 guards (<["ABS_BASS" := 7]> {["BTN_WEST" := 9]}) = Ok m2'
    ∧ m1' !! "BTN_WEST" = m2' !! "BTN_WEST".
Proof.
  apply (final_binding_local no_headers 0 "BTN_WEST").
  vm_compute. reflexivity.
Defined.

Lemma exec_Ifndef_top fs depth x (m : gmap string Z) :
  exec fs depth (Ifndef x) (State [] m) = Ok (State [negb (defined x m)] m).
Proof. by rewrite exec_unfold. Qed.

Lemma exec_Endif_pop fs depth b cs (m : gmap string Z) :
  exec fs depth Endif (State (b :: cs) m) = Ok (State cs m).
Proof. rewrite exec_unfold. by destruct b. Qed.

(** X7. The guarded definitions are balanced and respect the group they
    stand in: run from any state, they end with the conditional stack they
    started with; inside a skipped group they leave the macro table as it
    is, inside a processed one they act as at top level.  So wrapped in an
    outer [#ifndef x] ... [#endif] they take effect exactly when [x] is
    undefined. *)
Theorem guards_in_any_group fs depth (st : state) (x : string) (m : gmap string Z) :
  run (exec fs depth) guards st
  = Ok (State (conds st)
          (if active st then macros st ∪ list_to_map table else macros st))
  ∧ preprocess fs depth (Ifndef x :: guards ++ [Endif]) m
    = (if defined x m then Ok m else preprocess fs depth guards m).
Proof.
  split; [apply (run_guard_block_any fs depth table)|].
  rewrite preprocess_guards. unfold preprocess, file.
  change (Ifndef x :: guards ++ [Endif])
    with ([Ifndef x] ++ guard_block table ++ [Endif]).
  rewrite run_app, run_singleton, exec_Ifndef_top, bind_Ok.
  rewrite run_app, run_guard_block_any, bind_Ok, run_singleton.
  cbn [conds macros]. rewrite exec_Endif_pop, bind_Ok. cbn [conds macros].
  unfold active. cbn [conds]. by destruct (defined x m).
Qed.

(** X8. The header has no include guard of its own.  Still, once it has been
    preprocessed, preprocessing it again changes nothing, provided that
    including <linux/input.h> again from the resulting macro table changes
    nothing: the second pass, and one pass over the header written out
    twice, both succeed with the table of the first pass. *)
Theorem header_included_twice fs depth (m m' : gmap string Z) :
  preprocess fs depth input_defs_h m = Ok m' →
  preprocess fs depth [Include "linux/input.h"] m' = Ok m' →
  preprocess fs depth input_defs_h m' = Ok m'
  ∧ preprocess fs depth (input_defs_h ++ input_defs_h) m = Ok m'.
Proof.
  intros Hfirst Hagain. rewrite preprocess_input_defs_h in Hfirst.
  apply bind_Ok_inv in Hfirst as (m1 & Hinc & Hm').
  apply Ok_inj in Hm'. subst m'.
  assert (m1 ∪ list_to_map table ∪ list_to_map table = m1 ∪ list_to_map table)
    as Hidem by (by rewrite <-(assoc_L (∪)), (idemp_L (∪))).
  split.
  - by rewrite preprocess_input_defs_h, Hagain, bind_Ok, Hidem.
  - unfold preprocess, file.
    rewrite run_app, (run_input_defs_h _ _ _ _ Hinc), bind_Ok.
    rewrite (run_input_defs_h _ _ _ _ Hagain), bind_Ok, Hidem. reflexivity.
Qed.

Lemma header_included_twice_witness :
  preprocess old_platform 200 input_defs_h (old_macros ∪ list_to_map table)
  = Ok (old_macros ∪ list_to_map table)
  ∧ preprocess old_platform 200 (input_defs_h ++ input_defs_h) ∅
    = Ok (old_macros ∪ list_to_map table).
Proof.
  apply (header_included_twice old_platform 200 ∅ (old_macros ∪ list_to_map table)).
  - apply (bool_decide_unpack _). vm_compute. exact I.
  - apply (bool_decide_unpack _). vm_compute. exact I.
Defined.

(** X10. The first fallback wins: guarded definitions of table symbols that
    come after the header's, with whatever values, are all skipped and
    change nothing. *)
Theorem later_fallbacks_skipped fs depth tbl (m : gmap string Z) :
  Forall (λ entry, entry.1 ∈ symbols) tbl →
  preprocess fs depth (guards ++ guard_block tbl) m = preprocess fs depth guards m
  ∧ ∃ m', preprocess fs depth guards m = Ok m'.
Proof.
  intros Hall. rewrite preprocess_guards. split; [|eauto].
  unfold preprocess, file. change guards with (guard_block table).
  rewrite run_app, run_guard_block, bind_Ok, run_guard_block, bind_Ok.
  cbn [conds macros]. by rewrite union_fallbacks_absorb.
Qed.

Lemma later_fallbacks_skipped_witness :
  preprocess no_headers 0
    (guards ++ guard_block [("BTN_EAST", 0x999); ("ABS_BASS", 1)]) ∅
  = preprocess no_headers 0 guards ∅
  ∧ ∃ m', preprocess no_headers 0 guards ∅ = Ok m'.
Proof.
  apply (later_fallbacks_skipped no_headers 0 [("BTN_EAST", 0x999); ("ABS_BASS", 1)]).
  apply (bool_decide_unpack _). vm_compute. exact I.
Defined.

(** X11. Because the header has no include guard, it can be used to put a
    fallback back: after the guarded definitions, [#undef] of a table symbol
    followed by the guarded definitions once more leaves that symbol bound
    to its fallback value, whatever it was bound to before, and every other
    name bound as after the first pass. *)
Theorem undef_then_again fs depth sym v (m : gmap string Z) :
  (sym, v) ∈ table →
  ∃ m1 m2, preprocess fs depth guards m = Ok m1
           ∧ preprocess fs depth (guards ++ Undef sym :: guards) m = Ok m2
           ∧ m2 !! sym = Some v
           ∧ ∀ other, other ≠ sym → m2 !! other = m1 !! other.
Proof.
  intros Hin. rewrite preprocess_guards. unfold preprocess, file.
  change (guards ++ Undef sym :: guards)
    with (guard_block table ++ [Undef sym] ++ guard_block table).
  rewrite run_app, run_guard_block, bind_Ok.
  rewrite run_app, run_singleton, exec_unfold. cbn [active conds macros].
  rewrite bind_Ok, run_guard_block, bind_Ok. cbn [conds macros].
  eexists _, _. split; [reflexivity|]. split; [reflexivity|]. split.
  - rewrite lookup_union_r by apply lookup_delete_eq.
    by apply fallback_map_lookup.
  - intros other Hne. rewrite lookup_union, lookup_delete_ne by done.
    rewrite lookup_union.
    by destruct (m !! other), (list_to_map table !! other).
Qed.

Lemma undef_then_again_witness :
  ∃ m1 m2,
    preprocess no_headers 0 guards {["ABS_BASS" := 7]} = Ok m1
    ∧ preprocess no_headers 0 (guards ++ Undef "ABS_BASS" :: guards)
        {["ABS_BASS" := 7]} = Ok m2
    ∧ m2 !! "ABS_BASS" = Some 0x48
    ∧ ∀ other, other ≠ "ABS_BASS" → m2 !! other = m1 !! other.
Proof.
  apply (undef_then_again no_headers 0 "ABS_BASS" 0x48 {["ABS_BASS" := 7]}).
  apply (bool_decide_unpack _). vm_compute. exact I.
Defined.
